(** * mercury_bootstrap.c: the bootstrap fallbacks of the Mercury runtime

    A shallow embedding of [runtime/mercury_bootstrap.c]: the static
    type_ctor_info of [std_util:type_info/0], the three entry points of the
    module [unify_univ_module_bootstrap] (unify, index, compare), their
    registration, and [call_engine].

    The file includes [mercury_imp.h], which is not part of the sources at
    hand.  What the code takes from it is kept as a parameter of a Section
    (the width of [Word], the [COMPARE_*] constants, the C functions
    [MR_compare_type_info] and [MR_call_engine], the set of transient
    registers), or modelled from the specification where a claim is about
    it; such definitions say so in their documentation. *)

From stdpp Require Import gmap strings list.
From Stdlib Require Import ZArith Lia.

Local Open Scope Z_scope.

(** ** Machine words *)

(** [Word] is the unsigned machine word of the runtime and [Integer] its
    signed counterpart; both typedefs live in a header that is not at
    hand, so the width is a parameter.  A register holds a [Word], here an
    integer in [0, 2 ^ word_bits). *)
Section Words.
Variable word_bits : Z.

(** C conversion of an integer value to [Word]: reduction modulo
    [2 ^ word_bits]. *)
Definition Word_of_int (z : Z) : Z := z mod 2 ^ word_bits.

(** Reading a [Word] back as an [Integer] (two's complement). *)
Definition Integer_of_Word (w : Z) : Z :=
  if w <? 2 ^ (word_bits - 1) then w else w - 2 ^ word_bits.

(** The value of a C comparison such as [comp == COMPARE_EQUAL]. *)
Definition C_bool (b : bool) : Z := if b then 1 else 0.
End Words.

(** ** Register file *)

(** Modelled from the spec: the registers of the abstract machine (their
    declarations are missing): the numbered general-purpose slots [r1],
    [r2], ... of section 3, and [succip], the register that holds the
    continuation [proceed()] jumps to. *)
Inductive reg : Type :=
| rN (n : positive)
| succip.

Global Instance reg_eq_dec : EqDecision reg.
Proof. solve_decision. Defined.

Definition r1 : reg := rN 1.
Definition r2 : reg := rN 2.

(** Modelled from the spec: the Register File of sections 3 and 4.1 (the
    register macros of the runtime are missing).  Every register has its
    live value [mr] and a slot in the save area [fake_reg]. *)
Record engine : Type := Engine {
  mr : reg → Z;
  fake_reg : reg → Z
}.

(** Assignment [x = v] to a register. *)
Definition set_mr (x : reg) (v : Z) (e : engine) : engine :=
  {| mr := fun y => if decide (y = x) then v else mr e y;
     fake_reg := fake_reg e |}.

(** What running a piece of abstract-machine code yields: the engine state
    and the code address control continues at, or [None] when the code
    faults and does not return. *)
Definition entry_code : Type := engine → option (engine * Z).

Section RegisterDiscipline.
(** Which registers are transient, i.e. may be overwritten by a call to
    a C function. *)
Variable transient : reg → bool.

(** Modelled from the spec: the macro [save_transient_registers()] is
    missing; it copies the live value of each transient register to its
    slot of the save area. *)
Definition save_transient_registers (e : engine) : engine :=
  {| mr := mr e;
     fake_reg := fun x => if transient x then mr e x else fake_reg e x |}.

(** Modelled from the spec: the macro [restore_transient_registers()] is
    missing; it reloads each transient register from its slot of the
    save area. *)
Definition restore_transient_registers (e : engine) : engine :=
  {| mr := fun x => if transient x then fake_reg e x else mr e x;
     fake_reg := fake_reg e |}.

End RegisterDiscipline.

(** Modelled from the spec: the macro [proceed()] is missing; it returns
    via the continuation, which is the code address in [succip]. *)
Definition proceed (e : engine) : option (engine * Z) :=
  Some (e, mr e succip).

(** ** The entry points of [unify_univ_module_bootstrap] *)

Section EntryPoints.
Variable word_bits : Z.
Variable transient : reg → bool.
(** The constant [COMPARE_EQUAL] of the runtime's headers. *)
Variable COMPARE_EQUAL : Z.
(** The C function [int MR_compare_type_info(Word, Word)], defined in
    another file of the runtime: from the two arguments and the engine
    state at the call it yields its [int] result and the engine state it
    leaves behind, or [None] when it aborts. *)
Variable MR_compare_type_info : Z → Z → engine → option (Z * engine).

(** Lines 76-91. *)
Definition mercury____Unify___std_util__type_info_0_0_bootstrap
  : entry_code := fun e =>
  let e := save_transient_registers transient e in
  '(comp, e) ← MR_compare_type_info (mr e r1) (mr e r2) e;
  let e := restore_transient_registers transient e in
  let e := set_mr r1
             (Word_of_int word_bits (C_bool (comp =? COMPARE_EQUAL))) e in
  proceed e.

(** Lines 93-95. *)
Definition mercury____Index___std_util__type_info_0_0_bootstrap
  : entry_code := fun e =>
  let e := set_mr r1 (Word_of_int word_bits (-1)) e in
  proceed e.

(** Lines 97-112. *)
Definition mercury____Compare___std_util__type_info_0_0_bootstrap
  : entry_code := fun e =>
  let e := save_transient_registers transient e in
  '(comp, e) ← MR_compare_type_info (mr e r1) (mr e r2) e;
  let e := restore_transient_registers transient e in
  let e := set_mr r1 (Word_of_int word_bits comp) e in
  proceed e.

(** Modelled from the spec: the macro [init_entry] is missing; it enters
    the entry point, under the name of its label, in the table of
    callable entry points (sections 4.4 and 6).  Neither the source nor
    the specification says what entering a label that is already bound
    does; here the new binding takes its place.  What is proved of the
    registration below (the labels entered into an empty table, and the
    other labels being left alone) holds either way. *)
Definition init_entry (label : string) (code : entry_code)
    (table : gmap string entry_code) : gmap string entry_code :=
  <[label := code]> table.

(** Lines 71-75: the initialisation part of the module. *)
Definition unify_univ_module_bootstrap
    (table : gmap string entry_code) : gmap string entry_code :=
  let table :=
    init_entry "mercury____Unify___std_util__type_info_0_0_bootstrap"
      mercury____Unify___std_util__type_info_0_0_bootstrap table in
  let table :=
    init_entry "mercury____Index___std_util__type_info_0_0_bootstrap"
      mercury____Index___std_util__type_info_0_0_bootstrap table in
  init_entry "mercury____Compare___std_util__type_info_0_0_bootstrap"
    mercury____Compare___std_util__type_info_0_0_bootstrap table.

(** Lines 122-124. *)
Definition sys_init_unify_univ_module_bootstrap
    (table : gmap string entry_code) : gmap string entry_code :=
  unify_univ_module_bootstrap table.
End EntryPoints.

(** ** [call_engine] *)

Section CallEngine.
(** The C function [MR_call_engine(Code *, bool)] of the engine, defined
    in another file: it runs the abstract machine from the given address
    and, when that execution is complete, returns a pointer (here a
    [Word]) together with the state it leaves; [None] when control never
    comes back to the caller. *)
Variable MR_call_engine : Z → bool → engine → option (Z * engine).

(** Lines 127-129: [void call_engine(Code *entry_point)].  The value of
    [MR_call_engine] is cast to [void]. *)
Definition call_engine (entry_point : Z) (e : engine)
    : option (unit * engine) :=
  '(_, e') ← MR_call_engine entry_point false e;
  Some (tt, e').
End CallEngine.

(** ** The static type_ctor_info *)

(** The forms an initializer of the structure takes in the source. *)
Inductive initializer : Type :=
| Integer_cast (z : Z)
| ENTRY (label : string)
| Word_pointer (symbol : string)
| string_const (s : string) (len : Z).

(** Lines 46-68: [mercury_data_std_util__type_ctor_info_type_info_0], the
    initializers in the order of the source.  The structure is defined
    only in the grades where [ENTRY] can be used in an initializer. *)
Definition mercury_data_std_util__type_ctor_info_type_info_0
    (USE_NONLOCAL_GOTOS USE_ASM_LABELS : bool) : option (list initializer) :=
  if negb USE_NONLOCAL_GOTOS || USE_ASM_LABELS then
    Some [ Integer_cast 0;
           ENTRY "mercury____Unify___std_util__type_info_0_0_bootstrap";
           ENTRY "mercury____Index___std_util__type_info_0_0_bootstrap";
           ENTRY "mercury____Compare___std_util__type_info_0_0_bootstrap";
           Integer_cast 15;
           Word_pointer
             "mercury_data_std_util__type_ctor_functors_type_info_0_bootstrap";
           Word_pointer
             "mercury_data_std_util__type_ctor_layout_type_info_0_bootstrap";
           string_const "std_util" 8;
           string_const "type_info" 9 ]
  else None.

(** The kinds of field the interface description distinguishes. *)
Inductive field_kind : Type :=
| integer
| code_address
| pointer
| length_prefixed_string.

Global Instance field_kind_eq_dec : EqDecision field_kind.
Proof. solve_decision. Defined.

Definition kind_of (i : initializer) : field_kind :=
  match i with
  | Integer_cast _ => integer
  | ENTRY _ => code_address
  | Word_pointer _ => pointer
  | string_const _ _ => length_prefixed_string
  end.

(** The layout as the specification words it (section 6): [arity],
    [unifyEntry], [indexEntry], [compareEntry], [functorsInfo],
    [layoutInfo], [moduleName], [typeName]. *)
Definition spec_layout : list (string * field_kind) :=
  [ ("arity", integer);
    ("unifyEntry", code_address);
    ("indexEntry", code_address);
    ("compareEntry", code_address);
    ("functorsInfo", pointer);
    ("layoutInfo", pointer);
    ("moduleName", length_prefixed_string);
    ("typeName", length_prefixed_string) ].

(** The labels an initializer list refers to through [ENTRY]. *)
Definition entries_of (d : list initializer) : list string :=
  omap (fun i => match i with ENTRY l => Some l | _ => None end) d.

(** ** The Structural Comparator *)

Module Comparator.

(** The three-way result. *)
Inductive result : Type :=
| LESS
| EQUAL
| GREATER.

Global Instance result_eq_dec : EqDecision result.
Proof. solve_decision. Defined.

(** Modelled from the spec: the Type Descriptor of section 3.  The
    operation entries are the names of code labels; [layoutInfo] is kept
    as the references to the nested type-parameter descriptors it
    captures, which is all the comparator reads of it. *)
Record TypeDescriptor : Type := {
  arity : Z;
  unifyEntry : string;
  indexEntry : string;
  compareEntry : string;
  functorsInfo : Z;
  layoutInfo : list Z;
  moduleName : string;
  typeName : string
}.

Definition of_comparison (c : comparison) : result :=
  match c with
  | Lt => LESS
  | Eq => EQUAL
  | Gt => GREATER
  end.

(** Lexicographic composition: the first comparison decides unless it is
    a tie, and only then is the second looked at.  [None] is a fault. *)
Definition then_by (first rest : option result) : option result :=
  match first with
  | Some EQUAL => rest
  | _ => first
  end.

(** Depth-first comparison of two parameter lists, left to right. *)
Fixpoint compare_parameters (cmp : Z → Z → option result)
    (l1 l2 : list Z) : option result :=
  match l1, l2 with
  | [], [] => Some EQUAL
  | [], _ :: _ => Some LESS
  | _ :: _, [] => Some GREATER
  | x :: l1', y :: l2' => then_by (cmp x y) (compare_parameters cmp l1' l2')
  end.

(** The order derived from the structural metadata: arity first, then
    [moduleName], then [typeName], then the nested parameters. *)
Definition structural (cmp : Z → Z → option result)
    (da db : TypeDescriptor) : option result :=
  then_by (Some (of_comparison (arity da ?= arity db)))
 (then_by (Some (of_comparison
                   (String.compare (moduleName da) (moduleName db))))
 (then_by (Some (of_comparison
                   (String.compare (typeName da) (typeName db))))
    (compare_parameters cmp (layoutInfo da) (layoutInfo db)))).

(** Modelled from the spec: the function [MR_compare_type_info] is
    missing; this is the algorithm of section 4.2.  Descriptors are
    referred to by address; [table] holds the registered descriptors.
    Identity is tested first.  A reference to an unregistered
    descriptor is the fatal fault, [None]; so is running out of [fuel],
    which bounds the depth of the recursion into nested parameters. *)
Fixpoint compare (fuel : nat) (table : gmap Z TypeDescriptor)
    (a b : Z) : option result :=
  if decide (a = b) then Some EQUAL
  else
    match fuel with
    | O => None
    | S fuel' =>
        da ← table !! a;
        db ← table !! b;
        structural (compare fuel' table) da db
    end.

(** A descriptor is registered to depth [depth] when it is in the table
    and so, to depth [depth - 1], is every descriptor its layout refers
    to. *)
Fixpoint registered (depth : nat) (table : gmap Z TypeDescriptor)
    (a : Z) : bool :=
  match depth with
  | O => false
  | S depth' =>
      match table !! a with
      | None => false
      | Some d => forallb (registered depth' table) (layoutInfo d)
      end
  end.

Section AsCFunction.
(** The [COMPARE_*] constants of the runtime's headers. *)
Variables COMPARE_EQUAL COMPARE_LESS COMPARE_GREATER : Z.

Definition code (r : result) : Z :=
  match r with
  | LESS => COMPARE_LESS
  | EQUAL => COMPARE_EQUAL
  | GREATER => COMPARE_GREATER
  end.

(** The comparator seen from the entry points: a C function over the
    engine state.  It reads the descriptors only; [clobber] is what
    the call leaves in the register file. *)
Definition MR_compare_type_info (table : gmap Z TypeDescriptor)
    (fuel : nat) (clobber : engine → engine)
    (t1 t2 : Z) (e : engine) : option (Z * engine) :=
  r ← compare fuel table t1 t2;
  Some (code r, clobber e).
End AsCFunction.

(** How two results compose along a chain [x, y, z]: the result for
    [(x, z)] that the results for [(x, y)] and [(y, z)] force, if any. *)
Definition combine (p q : result) : option result :=
  match p, q with
  | EQUAL, r | r, EQUAL => Some r
  | LESS, LESS => Some LESS
  | GREATER, GREATER => Some GREATER
  | _, _ => None
  end.

Definition flip (p : result) : result :=
  match p with
  | LESS => GREATER
  | EQUAL => EQUAL
  | GREATER => LESS
  end.

(** The three results along a chain [x, y, z] fit together. *)
Definition Chain (xy yz xz : option result) : Prop :=
  ∀ p q r, xy = Some p → yz = Some q → combine p q = Some r → xz = Some r.

(** The result for [(y, x)] is the flipped result for [(x, y)]. *)
Definition Mirror (xy yx : option result) : Prop :=
  ∀ p, xy = Some p → yx = Some (flip p).

(** What is used of a [comparison]-valued order on the fields. *)
Record Ordering {A : Type} (cmp : A → A → comparison) : Prop := {
  ord_eq : ∀ x y, cmp x y = Eq → x = y;
  ord_refl : ∀ x, cmp x x = Eq;
  ord_opp : ∀ x y, cmp y x = CompOpp (cmp x y);
  ord_lt : ∀ x y z, cmp x y = Lt → cmp y z = Lt → cmp x z = Lt
}.

End Comparator.

(** ** Sample data *)

Module Sample.
Import Comparator.

Definition descriptor (n : Z) (module_name type_name : string)
    (parameters : list Z) : TypeDescriptor :=
  {| arity := n;
     unifyEntry := "unify";
     indexEntry := "index";
     compareEntry := "compare";
     functorsInfo := 0;
     layoutInfo := parameters;
     moduleName := module_name;
     typeName := type_name |}.

(** Six registered descriptors: [mod:ctor/0] twice, at two addresses,
    [mod:ctor1/0], [mod:ctor2/0], and two instances of [mod:list/1]. *)
Definition table : gmap Z TypeDescriptor :=
  <[ 96 := descriptor 0 "mod" "ctor" [] ]>
 (<[ 98 := descriptor 0 "mod" "ctor" [] ]>
 (<[ 100 := descriptor 0 "mod" "ctor1" [] ]>
 (<[ 200 := descriptor 0 "mod" "ctor2" [] ]>
 (<[ 300 := descriptor 1 "mod" "list" [100] ]>
 (<[ 400 := descriptor 1 "mod" "list" [200] ]> ∅))))).

(** Every register is transient. *)
Definition transient (x : reg) : bool := true.

(** A callee that overwrites every live register. *)
Definition clobber (e : engine) : engine :=
  {| mr := fun _ => 0; fake_reg := fake_reg e |}.

(** An engine state with the arguments [a] and [b] in [r1] and [r2]. *)
Definition engine_at (a b : Z) : engine :=
  {| mr := fun x =>
             match x with
             | rN 1 => a
             | rN 2 => b
             | rN _ => 7
             | succip => 4242
             end;
     fake_reg := fun _ => 0 |}.

(** The state the callee leaves when called from [engine_at a b] after
    the transient registers were saved. *)
Definition after_call (a b : Z) : engine :=
  clobber (save_transient_registers transient (engine_at a b)).

(** [MR_compare_type_info] over [table], with the codes 0, 1, 2 for
    EQUAL, LESS, GREATER. *)
Definition MR_compare_type_info : Z → Z → engine → option (Z * engine) :=
  Comparator.MR_compare_type_info 0 1 2 table 2 clobber.

(** An engine that returns the address it was started at, and does not
    return from address 0. *)
Definition MR_call_engine (entry_point : Z) (catch : bool) (e : engine)
    : option (Z * engine) :=
  if entry_point =? 0 then None
  else Some (entry_point, set_mr r1 entry_point e).
End Sample.

(** ** Further definitions *)

(** The labels the initialisation part of the module enters, in the order
    of lines 72-74. *)
Definition unify_univ_module_bootstrap_labels : list string :=
  [ "mercury____Unify___std_util__type_info_0_0_bootstrap";
    "mercury____Index___std_util__type_info_0_0_bootstrap";
    "mercury____Compare___std_util__type_info_0_0_bootstrap" ].

(** More sample callees: functions that do to the register file what the
    entry points do not rule out. *)
Module Probe.

(** Only [succip] is transient. *)
Definition transient (x : reg) : bool :=
  match x with
  | succip => true
  | rN _ => false
  end.

(** A comparator that returns an [int] that is none of the three codes,
    overwrites every live register and adds one to every slot of the save
    area. *)
Definition callee_leaves (e : engine) : engine :=
  {| mr := fun _ => 9; fake_reg := fun x => fake_reg e x + 1 |}.

Definition MR_compare_type_info (t1 t2 : Z) (e : engine)
    : option (Z * engine) :=
  Some (-5, callee_leaves e).

(** The state that call leaves when made from [Sample.engine_at a b]
    after the transient registers were saved. *)
Definition after_call (a b : Z) : engine :=
  callee_leaves (save_transient_registers transient (Sample.engine_at a b)).

End Probe.

(** A comparator that itself runs abstract-machine code. *)
Module Nested.

(** A C function that loads its arguments into [r1] and [r2], puts its
    own return address, 999, in [succip], and runs the Compare entry
    point of this module over [Sample.MR_compare_type_info]; its result is
    what that leaves in [r1]. *)
Definition MR_compare_type_info (t1 t2 : Z) (e : engine)
    : option (Z * engine) :=
  let e := set_mr succip 999 (set_mr r2 t2 (set_mr r1 t1 e)) in
  '(e', _) ← mercury____Compare___std_util__type_info_0_0_bootstrap
               64 Sample.transient Sample.MR_compare_type_info e;
  Some (mr e' r1, e').
End Nested.

(** * Properties *)

(** ** The Structural Comparator is an order *)

Import Comparator.

Lemma ascii_compare_lt_trans a b c :
  Ascii.compare a b = Lt → Ascii.compare b c = Lt → Ascii.compare a c = Lt.
Proof. unfold Ascii.compare. rewrite !N.compare_lt_iff. apply N.lt_trans. Qed.

Lemma ascii_compare_refl a : Ascii.compare a a = Eq.
Proof. apply N.compare_refl. Qed.

Lemma string_compare_refl s : String.compare s s = Eq.
Proof.
  induction s as [|a s IH]; simpl; [done|]. by rewrite ascii_compare_refl.
Qed.

Lemma string_compare_lt_trans x :
  ∀ y z, String.compare x y = Lt → String.compare y z = Lt →
         String.compare x z = Lt.
Proof.
  induction x as [|a x IH]; intros [|b y] [|c z]; simpl; try done.
  destruct (Ascii.compare a b) eqn:Hab; try done.
  - apply Ascii.compare_eq_iff in Hab as ->.
    destruct (Ascii.compare b c); try done. apply IH.
  - intros _. destruct (Ascii.compare b c) eqn:Hbc; try done.
    + apply Ascii.compare_eq_iff in Hbc as <-. by rewrite Hab.
    + by rewrite (ascii_compare_lt_trans _ _ _ Hab Hbc).
Qed.

Lemma string_Ordering : Ordering String.compare.
Proof.
  split.
  - apply String.compare_eq_iff.
  - apply string_compare_refl.
  - intros x y. apply String.compare_antisym.
  - intros x y z. apply string_compare_lt_trans.
Qed.

Lemma Z_Ordering : Ordering Z.compare.
Proof.
  split.
  - intros x y. apply Z.compare_eq.
  - apply Z.compare_refl.
  - intros x y. apply Z.compare_antisym.
  - intros x y z. rewrite !Z.compare_lt_iff. lia.
Qed.

Section Orderings.
Context {A : Type} (cmp : A → A → comparison) (O : Ordering cmp).

Lemma of_comparison_Mirror x y :
  Mirror (Some (of_comparison (cmp x y))) (Some (of_comparison (cmp y x))).
Proof.
  intros p [= <-]. rewrite (ord_opp cmp O x y). by destruct (cmp x y).
Qed.

Lemma ord_gt x y z : cmp x y = Gt → cmp y z = Gt → cmp x z = Gt.
Proof.
  intros Hxy Hyz.
  assert (cmp z y = Lt) as H1 by (rewrite (ord_opp cmp O y z), Hyz; done).
  assert (cmp y x = Lt) as H2 by (rewrite (ord_opp cmp O x y), Hxy; done).
  rewrite (ord_opp cmp O z x), (ord_lt cmp O z y x H1 H2). done.
Qed.

Lemma of_comparison_Chain x y z :
  Chain (Some (of_comparison (cmp x y))) (Some (of_comparison (cmp y z)))
        (Some (of_comparison (cmp x z))).
Proof.
  intros p q r [= <-] [= <-] Hr.
  destruct (cmp x y) eqn:Hxy.
  - apply (ord_eq cmp O) in Hxy as ->.
    destruct (cmp y z); simpl in *; congruence.
  - destruct (cmp y z) eqn:Hyz; simpl in Hr; try congruence.
    + apply (ord_eq cmp O) in Hyz as <-. rewrite Hxy; simpl in *; congruence.
    + rewrite (ord_lt cmp O _ _ _ Hxy Hyz); simpl in *; congruence.
  - destruct (cmp y z) eqn:Hyz; simpl in Hr; try congruence.
    + apply (ord_eq cmp O) in Hyz as <-. rewrite Hxy; simpl in *; congruence.
    + rewrite (ord_gt _ _ _ Hxy Hyz); simpl in *; congruence.
Qed.
End Orderings.

Lemma then_by_Mirror a b k1 k2 :
  Mirror a b → Mirror k1 k2 → Mirror (then_by a k1) (then_by b k2).
Proof.
  intros Hab Hk p. destruct a as [[]|]; simpl; intros Hp;
    try discriminate.
  - injection Hp as <-. by rewrite (Hab LESS eq_refl).
  - rewrite (Hab EQUAL eq_refl). simpl. by apply Hk.
  - injection Hp as <-. by rewrite (Hab GREATER eq_refl).
Qed.

Lemma then_by_Chain a b c k1 k2 k3 :
  Chain a b c → Chain k1 k2 k3 →
  Chain (then_by a k1) (then_by b k2) (then_by c k3).
Proof.
  intros Habc Hk p q r Hp Hq Hr.
  destruct a as [pa|]; [|done].
  destruct b as [qb|]; [|done].
  destruct pa, qb; simpl in Hp, Hq;
    repeat match goal with H : Some _ = Some _ |- _ => injection H as <- end;
    try (rewrite (Habc _ _ _ eq_refl eq_refl eq_refl); simpl);
    try (by eapply Hk);
    try (simpl in Hr; congruence);
    try (destruct p; simpl in Hr; congruence);
    try (destruct q; simpl in Hr; congruence).
Qed.

Section Parameters.
Variable cmp : Z → Z → option result.

Lemma compare_parameters_Mirror :
  (∀ x y, Mirror (cmp x y) (cmp y x)) →
  ∀ l1 l2,
    Mirror (compare_parameters cmp l1 l2) (compare_parameters cmp l2 l1).
Proof.
  intros Hcmp l1. induction l1 as [|x l1 IH]; intros [|y l2]; simpl;
    try (by intros p [= <-]).
  by apply then_by_Mirror.
Qed.

Lemma compare_parameters_Chain :
  (∀ x y z, Chain (cmp x y) (cmp y z) (cmp x z)) →
  ∀ l1 l2 l3,
    Chain (compare_parameters cmp l1 l2) (compare_parameters cmp l2 l3)
          (compare_parameters cmp l1 l3).
Proof.
  intros Hcmp l1. induction l1 as [|x l1 IH]; intros [|y l2] [|z l3]; simpl;
    try (by intros p q r [= <-] [= <-] Hr).
  - intros p q r [= <-] Hq Hr. destruct q; simpl in Hr; congruence.
  - intros p q r Hp [= <-] Hr. destruct p; simpl in Hr; congruence.
  - by apply then_by_Chain.
Qed.

Lemma compare_parameters_is_Some l1 l2 :
  (∀ x y, x ∈ l1 → y ∈ l2 → is_Some (cmp x y)) →
  is_Some (compare_parameters cmp l1 l2).
Proof.
  revert l2. induction l1 as [|x l1 IH]; intros [|y l2] H; simpl; try done.
  destruct (H x y) as [[] Hxy]; [left | left | | | ]; rewrite ?Hxy; simpl;
    try done.
  apply IH. intros x' y' Hx' Hy'. apply H; by right.
Qed.
End Parameters.

Lemma then_by_is_Some a k : is_Some a → is_Some k → is_Some (then_by a k).
Proof. intros [[] ->] Hk; simpl; done. Qed.

Section Compare.
Variable table : gmap Z TypeDescriptor.

Lemma compare_refl fuel a : compare fuel table a a = Some EQUAL.
Proof. destruct fuel; simpl; by rewrite decide_True. Qed.

Lemma structural_Mirror cmp da db :
  (∀ x y, Mirror (cmp x y) (cmp y x)) →
  Mirror (structural cmp da db) (structural cmp db da).
Proof.
  intros H. unfold structural.
  repeat apply then_by_Mirror;
    auto using of_comparison_Mirror, Z_Ordering, string_Ordering,
      compare_parameters_Mirror.
Qed.

Lemma structural_Chain cmp da db dc :
  (∀ x y z, Chain (cmp x y) (cmp y z) (cmp x z)) →
  Chain (structural cmp da db) (structural cmp db dc) (structural cmp da dc).
Proof.
  intros H. unfold structural.
  repeat apply then_by_Chain;
    auto using of_comparison_Chain, Z_Ordering, string_Ordering,
      compare_parameters_Chain.
Qed.

Lemma compare_Mirror fuel :
  ∀ a b, Mirror (compare fuel table a b) (compare fuel table b a).
Proof.
  induction fuel as [|fuel IH]; intros a b p; simpl.
  - case_decide as Hab; [|done]. intros [= <-]. by rewrite decide_True.
  - case_decide as Hab.
    + intros [= <-]. by rewrite decide_True.
    + rewrite decide_False by congruence.
      destruct (table !! a) as [da|]; [|done].
      destruct (table !! b) as [db|]; [|done]. simpl.
      by apply structural_Mirror.
Qed.

Lemma compare_Chain fuel :
  ∀ a b c, Chain (compare fuel table a b) (compare fuel table b c)
                 (compare fuel table a c).
Proof.
  induction fuel as [|fuel IH]; intros a b c p q r Hp Hq Hr.
  - simpl in *. repeat case_decide; simplify_eq; done.
  - destruct (decide (a = b)) as [->|Hab].
    { rewrite compare_refl in Hp. injection Hp as <-.
      destruct q; simpl in Hr; congruence. }
    destruct (decide (b = c)) as [->|Hbc].
    { rewrite compare_refl in Hq. injection Hq as <-.
      destruct p; simpl in Hr; congruence. }
    destruct (decide (a = c)) as [->|Hac].
    { rewrite compare_refl. apply compare_Mirror in Hp.
      rewrite Hp in Hq. injection Hq as <-.
      destruct p; simpl in Hr; congruence. }
    simpl in *. repeat case_decide; try done.
    destruct (table !! a) as [da|]; [|done].
    destruct (table !! b) as [db|]; [|done].
    destruct (table !! c) as [dc|]; [|done]. simpl in *.
    by eapply (structural_Chain _ da db dc).
Qed.

Lemma registered_lookup depth a :
  registered (S depth) table a = true →
  ∃ d, table !! a = Some d ∧
       ∀ x, x ∈ layoutInfo d → registered depth table x = true.
Proof.
  simpl. destruct (table !! a) as [d|]; [|done]. intros H.
  exists d. split; [done|]. intros x Hx.
  rewrite forallb_forall in H. apply H. by apply list_elem_of_In.
Qed.

Lemma compare_is_Some depth :
  ∀ a b, registered depth table a = true → registered depth table b = true →
         is_Some (compare depth table a b).
Proof.
  induction depth as [|depth IH]; intros a b Ha Hb; [done|].
  apply registered_lookup in Ha as (da & Hda & Ha).
  apply registered_lookup in Hb as (db & Hdb & Hb).
  simpl. case_decide; [done|]. rewrite Hda, Hdb. simpl.
  unfold structural. repeat apply then_by_is_Some; try done.
  apply compare_parameters_is_Some. auto.
Qed.

Lemma compare_parameters_ext cmp cmp' l1 l2 r :
  (∀ x y p, cmp x y = Some p → cmp' x y = Some p) →
  compare_parameters cmp l1 l2 = Some r →
  compare_parameters cmp' l1 l2 = Some r.
Proof.
  intros H. revert l2. induction l1 as [|x l1 IH]; intros [|y l2]; simpl;
    try done.
  destruct (cmp x y) as [p|] eqn:Hxy; [|done].
  rewrite (H _ _ _ Hxy). destruct p; simpl; auto.
Qed.

Lemma compare_fuel_mono fuel :
  ∀ a b r, compare fuel table a b = Some r →
           compare (S fuel) table a b = Some r.
Proof.
  induction fuel as [|fuel IH]; intros a b r.
  - simpl. case_decide; done.
  - intros H. change (compare (S (S fuel)) table a b) with
      (if decide (a = b) then Some EQUAL
       else da ← table !! a; db ← table !! b;
            structural (compare (S fuel) table) da db).
    simpl in H. case_decide; [done|].
    destruct (table !! a) as [da|]; [|done].
    destruct (table !! b) as [db|]; [|done]. simpl in *.
    unfold structural in *.
    destruct (arity da ?= arity db); simpl in *; try done.
    destruct (String.compare (moduleName da) (moduleName db)); simpl in *;
      try done.
    destruct (String.compare (typeName da) (typeName db)); simpl in *;
      try done.
    by eapply compare_parameters_ext.
Qed.
End Compare.

(** For registered descriptors the result does not depend on the fuel,
    once there is enough of it. *)
Lemma compare_fuel_le table depth fuel a b r :
  (depth ≤ fuel)%nat →
  compare depth table a b = Some r → compare fuel table a b = Some r.
Proof.
  induction 1 as [|fuel _ IH]; [done|].
  intros H. by apply compare_fuel_mono, IH.
Qed.

(** C3: on registered descriptors the Structural Comparator returns a
    result, [compare a b = LESS] exactly when [compare b a = GREATER], and
    [compare a b = LESS] with [compare b c = LESS] gives
    [compare a c = LESS]. *)
Theorem compare_is_total_order
    (table : gmap Z TypeDescriptor) (depth : nat) (a b c : Z) :
  registered depth table a = true →
  registered depth table b = true →
  registered depth table c = true →
  is_Some (Comparator.compare depth table a b) ∧
  (Comparator.compare depth table a b = Some LESS ↔
   Comparator.compare depth table b a = Some GREATER) ∧
  (Comparator.compare depth table a b = Some LESS →
   Comparator.compare depth table b c = Some LESS →
   Comparator.compare depth table a c = Some LESS).
Proof.
  intros Ha Hb Hc. split; [by apply compare_is_Some|]. split; [split|].
  - apply (compare_Mirror table depth a b).
  - apply (compare_Mirror table depth b a).
  - intros Hab Hbc. by apply (compare_Chain table depth a b c LESS LESS).
Qed.

Lemma compare_is_total_order_witness :
  (registered 2 Sample.table 100 = true ∧
   registered 2 Sample.table 300 = true ∧
   registered 2 Sample.table 400 = true) ∧
  (is_Some (Comparator.compare 2 Sample.table 100 300) ∧
   (Comparator.compare 2 Sample.table 100 300 = Some LESS ↔
    Comparator.compare 2 Sample.table 300 100 = Some GREATER) ∧
   (Comparator.compare 2 Sample.table 100 300 = Some LESS →
    Comparator.compare 2 Sample.table 300 400 = Some LESS →
    Comparator.compare 2 Sample.table 100 400 = Some LESS)).
Proof.
  split.
  - repeat split; vm_compute; reflexivity.
  - apply (compare_is_total_order Sample.table 2 100 300 400);
      vm_compute; reflexivity.
Defined.

(** The chain of the witness is not vacuous, and the scenarios of the
    specification come out as it says. *)
Example sample_chain :
  Comparator.compare 2 Sample.table 100 300 = Some LESS ∧
  Comparator.compare 2 Sample.table 300 400 = Some LESS ∧
  Comparator.compare 2 Sample.table 100 400 = Some LESS ∧
  Comparator.compare 2 Sample.table 400 300 = Some GREATER.
Proof. repeat split; vm_compute; reflexivity. Qed.

Example sample_identical_descriptors :
  Comparator.compare 2 Sample.table 96 96 = Some EQUAL ∧
  Comparator.compare 2 Sample.table 96 98 = Some EQUAL.
Proof. split; vm_compute; reflexivity. Qed.

Example sample_typeName_order :
  Comparator.compare 2 Sample.table 100 200 = Some LESS ∧
  Comparator.compare 2 Sample.table 200 100 = Some GREATER ∧
  String.compare "ctor1" "ctor2" = Lt.
Proof. repeat split; vm_compute; reflexivity. Qed.

Example sample_unregistered :
  Comparator.compare 2 Sample.table 100 500 = None.
Proof. vm_compute; reflexivity. Qed.

(** ** Machine words *)

Section WordFacts.
Variable word_bits : Z.
Hypothesis word_bits_pos : 0 < word_bits.

Lemma two_power_word_bits : 2 ^ word_bits = 2 * 2 ^ (word_bits - 1).
Proof. rewrite <- Z.pow_succ_r by lia. f_equal. lia. Qed.

Lemma half_range_pos : 0 < 2 ^ (word_bits - 1).
Proof. apply Z.pow_pos_nonneg; lia. Qed.

Lemma Word_of_int_small z :
  0 ≤ z < 2 ^ word_bits → Word_of_int word_bits z = z.
Proof. intros H. unfold Word_of_int. by apply Z.mod_small. Qed.

Lemma Word_of_int_C_bool b : Word_of_int word_bits (C_bool b) = C_bool b.
Proof.
  apply Word_of_int_small.
  pose proof two_power_word_bits. pose proof half_range_pos.
  destruct b; simpl; lia.
Qed.

Lemma Word_of_int_minus_1 : Word_of_int word_bits (-1) = 2 ^ word_bits - 1.
Proof.
  unfold Word_of_int. pose proof two_power_word_bits.
  pose proof half_range_pos.
  symmetry. apply (Z.mod_unique _ _ (-1)); lia.
Qed.

Lemma Integer_of_Word_of_int z :
  - 2 ^ (word_bits - 1) ≤ z < 2 ^ (word_bits - 1) →
  Integer_of_Word word_bits (Word_of_int word_bits z) = z.
Proof.
  intros Hz. pose proof two_power_word_bits as H2.
  unfold Integer_of_Word, Word_of_int.
  destruct (decide (0 ≤ z)) as [Hpos|Hneg].
  - rewrite Z.mod_small by lia.
    destruct (Z.ltb_spec z (2 ^ (word_bits - 1))); lia.
  - assert (z mod 2 ^ word_bits = z + 2 ^ word_bits) as ->.
    { symmetry. apply (Z.mod_unique _ _ (-1)); lia. }
    destruct (Z.ltb_spec (z + 2 ^ word_bits) (2 ^ (word_bits - 1))); lia.
Qed.
End WordFacts.

(** ** The entry points *)

Section EntryPointFacts.
Variable word_bits : Z.
Variable transient : reg → bool.
Variable COMPARE_EQUAL : Z.
Variable MR_compare_type_info : Z → Z → engine → option (Z * engine).

Local Abbreviation Unify :=
  (mercury____Unify___std_util__type_info_0_0_bootstrap
     word_bits transient COMPARE_EQUAL MR_compare_type_info).
Local Abbreviation Compare :=
  (mercury____Compare___std_util__type_info_0_0_bootstrap
     word_bits transient MR_compare_type_info).

Lemma Unify_returns e comp e1 :
  MR_compare_type_info (mr e r1) (mr e r2)
    (save_transient_registers transient e) = Some (comp, e1) →
  Unify e =
    Some (set_mr r1 (Word_of_int word_bits (C_bool (comp =? COMPARE_EQUAL)))
            (restore_transient_registers transient e1),
          mr (restore_transient_registers transient e1) succip).
Proof.
  intros H. unfold mercury____Unify___std_util__type_info_0_0_bootstrap.
  simpl. by rewrite H.
Qed.

Lemma Compare_returns e comp e1 :
  MR_compare_type_info (mr e r1) (mr e r2)
    (save_transient_registers transient e) = Some (comp, e1) →
  Compare e =
    Some (set_mr r1 (Word_of_int word_bits comp)
            (restore_transient_registers transient e1),
          mr (restore_transient_registers transient e1) succip).
Proof.
  intros H. unfold mercury____Compare___std_util__type_info_0_0_bootstrap.
  simpl. by rewrite H.
Qed.

(** When the comparator aborts, so does the entry point. *)
Lemma entry_points_abort e :
  MR_compare_type_info (mr e r1) (mr e r2)
    (save_transient_registers transient e) = None →
  Unify e = None ∧ Compare e = None.
Proof.
  intros H.
  unfold mercury____Unify___std_util__type_info_0_0_bootstrap,
    mercury____Compare___std_util__type_info_0_0_bootstrap.
  simpl. by rewrite H.
Qed.


Lemma set_mr_other x y v e : y ≠ x → mr (set_mr x v e) y = mr e y.
Proof. intros H. simpl. by rewrite decide_False. Qed.

Lemma set_mr_same x v e : mr (set_mr x v e) x = v.
Proof. simpl. by rewrite decide_True. Qed.
End EntryPointFacts.

Section EntryPointClaims.
Variable word_bits : Z.
Variable transient : reg → bool.
Variable COMPARE_EQUAL : Z.
Variable MR_compare_type_info : Z → Z → engine → option (Z * engine).
Hypothesis word_bits_pos : 0 < word_bits.

Local Abbreviation Unify :=
  (mercury____Unify___std_util__type_info_0_0_bootstrap
     word_bits transient COMPARE_EQUAL MR_compare_type_info).
Local Abbreviation Index :=
  (mercury____Index___std_util__type_info_0_0_bootstrap word_bits).
Local Abbreviation Compare :=
  (mercury____Compare___std_util__type_info_0_0_bootstrap
     word_bits transient MR_compare_type_info).

(** C1: when the comparator, called on the two descriptors in [r1] and
    [r2], returns [comp], the Unify entry point returns with the boolean
    [comp == COMPARE_EQUAL] in [r1]: 1 exactly when [comp] is
    [COMPARE_EQUAL], and 0 otherwise. *)
Theorem Unify_is_compare_EQUAL (e : engine) (comp : Z) (e1 : engine) :
  MR_compare_type_info (mr e r1) (mr e r2)
    (save_transient_registers transient e) = Some (comp, e1) →
  ∃ e' k,
    Unify e = Some (e', k) ∧
    mr e' r1 = C_bool (comp =? COMPARE_EQUAL) ∧
    (mr e' r1 = 1 ↔ comp = COMPARE_EQUAL) ∧
    (mr e' r1 = 0 ↔ comp ≠ COMPARE_EQUAL).
Proof.
  intros H. eexists _, _. split; [by apply Unify_returns|].
  rewrite set_mr_same, Word_of_int_C_bool by done.
  destruct (Z.eqb_spec comp COMPARE_EQUAL) as [Heq|Hne]; simpl;
    repeat split; intros; try done; lia.
Qed.

(** C2: for every engine state the Index entry point returns via the
    continuation with the [Word] of -1 in [r1], which read as an
    [Integer] is -1 and so never a non-negative index; no other
    register changes. *)
Theorem Index_is_minus_1 (e : engine) :
  ∃ e',
    Index e = Some (e', mr e succip) ∧
    mr e' r1 = 2 ^ word_bits - 1 ∧
    Integer_of_Word word_bits (mr e' r1) = -1 ∧
    ¬ 0 ≤ Integer_of_Word word_bits (mr e' r1) ∧
    ∀ x, x ≠ r1 → mr e' x = mr e x.
Proof.
  eexists. split; [reflexivity|].
  rewrite set_mr_same.
  assert (Integer_of_Word word_bits (Word_of_int word_bits (-1)) = -1) as Hi.
  { apply Integer_of_Word_of_int; [done|].
    pose proof (half_range_pos word_bits word_bits_pos). lia. }
  rewrite Hi. repeat split.
  - by apply Word_of_int_minus_1.
  - lia.
  - intros x Hx. by apply set_mr_other.
Qed.


(** C6: when the comparator, called on the two descriptors in [r1] and
    [r2], returns [comp], the Compare entry point returns with [comp]
    itself in [r1]: the [Word] of [comp], which is [comp] when [comp] is
    not negative and reads back as [comp] for every [comp] in the range
    of [Integer]. *)
Theorem Compare_is_comparator_result
    (e : engine) (comp : Z) (e1 : engine) :
  MR_compare_type_info (mr e r1) (mr e r2)
    (save_transient_registers transient e) = Some (comp, e1) →
  - 2 ^ (word_bits - 1) ≤ comp < 2 ^ (word_bits - 1) →
  ∃ e' k,
    Compare e = Some (e', k) ∧
    mr e' r1 = Word_of_int word_bits comp ∧
    Integer_of_Word word_bits (mr e' r1) = comp ∧
    (0 ≤ comp → mr e' r1 = comp).
Proof.
  intros H Hrange. eexists _, _. split; [by apply Compare_returns|].
  rewrite set_mr_same. repeat split.
  - by apply Integer_of_Word_of_int.
  - intros Hpos. apply Word_of_int_small.
    pose proof (two_power_word_bits word_bits word_bits_pos). lia.
Qed.
End EntryPointClaims.

(** C4: comparing a descriptor with itself yields EQUAL, whatever the
    table and the fuel, and the Unify entry point, run over the Structural
    Comparator with the same descriptor in [r1] and [r2], returns with
    true (1) in [r1]. *)
Theorem compare_and_unify_reflexive
    (table : gmap Z TypeDescriptor) (fuel : nat) (d : Z)
    (word_bits : Z) (transient : reg → bool)
    (COMPARE_EQUAL COMPARE_LESS COMPARE_GREATER : Z)
    (clobber : engine → engine) (e : engine) :
  0 < word_bits →
  mr e r1 = d →
  mr e r2 = d →
  Comparator.compare fuel table d d = Some EQUAL ∧
  ∃ e' k,
    mercury____Unify___std_util__type_info_0_0_bootstrap
      word_bits transient COMPARE_EQUAL
      (Comparator.MR_compare_type_info
         COMPARE_EQUAL COMPARE_LESS COMPARE_GREATER table fuel clobber) e
    = Some (e', k) ∧
    mr e' r1 = 1.
Proof.
  intros Hw H1 H2. split; [apply compare_refl|].
  eexists _, _. split.
  - apply Unify_returns. unfold Comparator.MR_compare_type_info.
    rewrite H1, H2, compare_refl. reflexivity.
  - rewrite set_mr_same. simpl. rewrite Z.eqb_refl.
    by apply (Word_of_int_C_bool word_bits Hw true).
Qed.

(** ** [call_engine] *)

(** C9: [call_engine] runs [MR_call_engine] once, from the address it is
    given and with [FALSE] for the second argument, and is back exactly
    when that call is, with the engine state the call leaves; it returns
    no value, and what [MR_call_engine] returns has no bearing on its
    outcome. *)
Theorem call_engine_returns_nothing
    (MR_call_engine : Z → bool → engine → option (Z * engine))
    (entry_point : Z) (e : engine) :
  call_engine MR_call_engine entry_point e
    = (λ r, (tt, r.2)) <$> MR_call_engine entry_point false e ∧
  ∀ f : Z → Z,
    call_engine
      (λ a c s, (λ r, (f r.1, r.2)) <$> MR_call_engine a c s) entry_point e
    = call_engine MR_call_engine entry_point e.
Proof.
  unfold call_engine. split.
  - by destruct (MR_call_engine entry_point false e) as [[v e']|].
  - intros f. by destruct (MR_call_engine entry_point false e) as [[v e']|].
Qed.

Example call_engine_sample :
  (∃ e', call_engine Sample.MR_call_engine 17 (Sample.engine_at 1 2)
         = Some (tt, e') ∧ mr e' r1 = 17) ∧
  call_engine Sample.MR_call_engine 0 (Sample.engine_at 1 2) = None.
Proof. split; [eexists; split; reflexivity | reflexivity]. Qed.

(** ** The static type_ctor_info *)

(** C7, as amended: where the structure is defined it has nine fields, in
    this order: an integer (the arity), three code addresses, a further
    integer (15), two pointers and two length-prefixed strings; that is
    the layout of the specification with one integer field between
    [compareEntry] and [functorsInfo]. *)
Theorem type_ctor_info_layout
    (USE_NONLOCAL_GOTOS USE_ASM_LABELS : bool) (d : list initializer) :
  mercury_data_std_util__type_ctor_info_type_info_0
    USE_NONLOCAL_GOTOS USE_ASM_LABELS = Some d →
  length d = 9%nat ∧
  kind_of <$> d =
    take 4 spec_layout.*2 ++ [integer] ++ drop 4 spec_layout.*2 ∧
  d !! 4%nat = Some (Integer_cast 15).
Proof.
  unfold mercury_data_std_util__type_ctor_info_type_info_0.
  destruct (negb USE_NONLOCAL_GOTOS || USE_ASM_LABELS); [|done].
  intros [= <-]. repeat split.
Qed.

Lemma type_ctor_info_layout_witness :
  ∃ d,
    mercury_data_std_util__type_ctor_info_type_info_0 false false = Some d ∧
    (length d = 9%nat ∧
     kind_of <$> d =
       take 4 spec_layout.*2 ++ [integer] ++ drop 4 spec_layout.*2 ∧
     d !! 4%nat = Some (Integer_cast 15)).
Proof.
  eexists. split; [reflexivity|].
  apply (type_ctor_info_layout false false). reflexivity.
Defined.

(** C7, as stated, fails: the fields of the structure are not the eight of
    the specification's layout. *)
Lemma type_ctor_info_layout_not_spec :
  ¬ (∀ USE_NONLOCAL_GOTOS USE_ASM_LABELS d,
       mercury_data_std_util__type_ctor_info_type_info_0
         USE_NONLOCAL_GOTOS USE_ASM_LABELS = Some d →
       kind_of <$> d = spec_layout.*2).
Proof.
  intros H. specialize (H false false _ eq_refl). discriminate H.
Qed.

(** C10: where the structure is defined, it names [std_util] and
    [type_info] (each with its length), has arity 0, and its three code
    addresses are the labels of the Unify, Index and Compare entry points
    of this module, in this order: the labels, and the only ones, that the
    module's initialisation enters in the entry table, each with the code
    defined for it here. *)
Theorem type_ctor_info_identity
    (USE_NONLOCAL_GOTOS USE_ASM_LABELS : bool) (d : list initializer)
    (word_bits : Z) (transient : reg → bool) (COMPARE_EQUAL : Z)
    (MR_compare_type_info : Z → Z → engine → option (Z * engine)) :
  mercury_data_std_util__type_ctor_info_type_info_0
    USE_NONLOCAL_GOTOS USE_ASM_LABELS = Some d →
  let table :=
    sys_init_unify_univ_module_bootstrap
      word_bits transient COMPARE_EQUAL MR_compare_type_info ∅ in
  d !! 0%nat = Some (Integer_cast 0) ∧
  d !! 7%nat =
    Some (string_const "std_util" (Z.of_nat (String.length "std_util"))) ∧
  d !! 8%nat =
    Some (string_const "type_info" (Z.of_nat (String.length "type_info"))) ∧
  d !! 1%nat =
    Some (ENTRY "mercury____Unify___std_util__type_info_0_0_bootstrap") ∧
  d !! 2%nat =
    Some (ENTRY "mercury____Index___std_util__type_info_0_0_bootstrap") ∧
  d !! 3%nat =
    Some (ENTRY "mercury____Compare___std_util__type_info_0_0_bootstrap") ∧
  dom table = list_to_set (entries_of d) ∧
  table !! "mercury____Unify___std_util__type_info_0_0_bootstrap" =
    Some (mercury____Unify___std_util__type_info_0_0_bootstrap
            word_bits transient COMPARE_EQUAL MR_compare_type_info) ∧
  table !! "mercury____Index___std_util__type_info_0_0_bootstrap" =
    Some (mercury____Index___std_util__type_info_0_0_bootstrap word_bits) ∧
  table !! "mercury____Compare___std_util__type_info_0_0_bootstrap" =
    Some (mercury____Compare___std_util__type_info_0_0_bootstrap
            word_bits transient MR_compare_type_info).
Proof.
  unfold mercury_data_std_util__type_ctor_info_type_info_0.
  destruct (negb USE_NONLOCAL_GOTOS || USE_ASM_LABELS); [|done].
  intros [= <-]. cbv zeta.
  split_and!; reflexivity.
Qed.

(** ** The theorems at the sample data

    A 64-bit word, every register transient, the comparator over
    [Sample.table], whose callee overwrites every live register. *)

Lemma Unify_is_compare_EQUAL_witness :
  (0 < 64 ∧
   Sample.MR_compare_type_info
     (mr (Sample.engine_at 100 200) r1) (mr (Sample.engine_at 100 200) r2)
     (save_transient_registers Sample.transient (Sample.engine_at 100 200))
   = Some (1, Sample.after_call 100 200)) ∧
  ∃ e' k,
    mercury____Unify___std_util__type_info_0_0_bootstrap
      64 Sample.transient 0 Sample.MR_compare_type_info
      (Sample.engine_at 100 200)
    = Some (e', k) ∧
    mr e' r1 = C_bool (1 =? 0) ∧
    (mr e' r1 = 1 ↔ 1 = 0) ∧
    (mr e' r1 = 0 ↔ 1 ≠ 0).
Proof.
  split.
  - split; [lia | vm_compute; reflexivity].
  - apply (Unify_is_compare_EQUAL 64 Sample.transient 0
             Sample.MR_compare_type_info ltac:(lia)
             (Sample.engine_at 100 200) 1 (Sample.after_call 100 200)).
    vm_compute; reflexivity.
Defined.

Lemma Index_is_minus_1_witness :
  0 < 64 ∧
  ∃ e',
    mercury____Index___std_util__type_info_0_0_bootstrap 64
      (Sample.engine_at 100 200)
    = Some (e', mr (Sample.engine_at 100 200) succip) ∧
    mr e' r1 = 2 ^ 64 - 1 ∧
    Integer_of_Word 64 (mr e' r1) = -1 ∧
    ¬ 0 ≤ Integer_of_Word 64 (mr e' r1) ∧
    ∀ x, x ≠ r1 → mr e' x = mr (Sample.engine_at 100 200) x.
Proof.
  split; [lia|].
  apply (Index_is_minus_1 64 ltac:(lia) (Sample.engine_at 100 200)).
Defined.


Lemma Compare_is_comparator_result_witness :
  (0 < 64 ∧
   Sample.MR_compare_type_info
     (mr (Sample.engine_at 400 300) r1) (mr (Sample.engine_at 400 300) r2)
     (save_transient_registers Sample.transient (Sample.engine_at 400 300))
   = Some (2, Sample.after_call 400 300) ∧
   - 2 ^ (64 - 1) ≤ 2 < 2 ^ (64 - 1)) ∧
  ∃ e' k,
    mercury____Compare___std_util__type_info_0_0_bootstrap
      64 Sample.transient Sample.MR_compare_type_info
      (Sample.engine_at 400 300)
    = Some (e', k) ∧
    mr e' r1 = Word_of_int 64 2 ∧
    Integer_of_Word 64 (mr e' r1) = 2 ∧
    (0 ≤ 2 → mr e' r1 = 2).
Proof.
  split.
  - split; [lia|]. split; [vm_compute; reflexivity | lia].
  - apply (Compare_is_comparator_result 64 Sample.transient
             Sample.MR_compare_type_info ltac:(lia)
             (Sample.engine_at 400 300) 2 (Sample.after_call 400 300));
      [vm_compute; reflexivity | lia].
Defined.

Lemma compare_and_unify_reflexive_witness :
  (0 < 64 ∧
   mr (Sample.engine_at 300 300) r1 = 300 ∧
   mr (Sample.engine_at 300 300) r2 = 300) ∧
  (Comparator.compare 2 Sample.table 300 300 = Some EQUAL ∧
   ∃ e' k,
     mercury____Unify___std_util__type_info_0_0_bootstrap
       64 Sample.transient 0
       (Comparator.MR_compare_type_info 0 1 2 Sample.table 2 Sample.clobber)
       (Sample.engine_at 300 300)
     = Some (e', k) ∧
     mr e' r1 = 1).
Proof.
  split.
  - split; [lia|]. split; reflexivity.
  - apply (compare_and_unify_reflexive Sample.table 2 300 64 Sample.transient
             0 1 2 Sample.clobber (Sample.engine_at 300 300));
      [lia | reflexivity | reflexivity].
Defined.

Lemma type_ctor_info_identity_witness :
  ∃ d,
    mercury_data_std_util__type_ctor_info_type_info_0 false false = Some d ∧
    d !! 0%nat = Some (Integer_cast 0) ∧
    d !! 7%nat = Some (string_const "std_util" 8) ∧
    d !! 8%nat = Some (string_const "type_info" 9) ∧
    entries_of d =
      [ "mercury____Unify___std_util__type_info_0_0_bootstrap";
        "mercury____Index___std_util__type_info_0_0_bootstrap";
        "mercury____Compare___std_util__type_info_0_0_bootstrap" ] ∧
    dom (sys_init_unify_univ_module_bootstrap
           64 Sample.transient 0 Sample.MR_compare_type_info ∅)
    = list_to_set (entries_of d).
Proof.
  eexists. split; [reflexivity|].
  pose proof (type_ctor_info_identity false false _ 64 Sample.transient 0
                Sample.MR_compare_type_info eq_refl) as H.
  cbv zeta in H. destruct H as (H0 & H7 & H8 & _ & _ & _ & Hdom & _).
  split_and!; [exact H0 | exact H7 | exact H8 | reflexivity | exact Hdom].
Defined.

(** Without the restore, the call of the sample would have lost the
    continuation: the callee leaves 0 in [succip]. *)
Example sample_callee_clobbers :
  let e := Sample.engine_at 100 200 in
  mr e succip = 4242 ∧
  mr (Sample.clobber (save_transient_registers Sample.transient e)) succip = 0.
Proof. split; reflexivity. Qed.


(** The same call returns to 999, not to the caller's 4242, although the
    nested comparison itself went well: its result, LESS, is in [r1] as
    false. *)
Example nested_call_returns_elsewhere :
  ∃ e',
    mercury____Unify___std_util__type_info_0_0_bootstrap
      64 Sample.transient 0 Nested.MR_compare_type_info
      (Sample.engine_at 100 200)
    = Some (e', 999) ∧
    mr e' r1 = 0 ∧
    mr e' r2 = 200 ∧
    mr (Sample.engine_at 100 200) succip = 4242.
Proof. eexists. split; [reflexivity|]. split_and!; reflexivity. Qed.

(** * Further properties of the code *)

(** ** The entry points over an arbitrary comparator *)

Section EntryPointsTogether.
Variable word_bits : Z.
Variable transient : reg → bool.
Variable COMPARE_EQUAL : Z.
Variable MR_compare_type_info : Z → Z → engine → option (Z * engine).
Hypothesis word_bits_pos : 0 < word_bits.

Local Abbreviation Unify :=
  (mercury____Unify___std_util__type_info_0_0_bootstrap
     word_bits transient COMPARE_EQUAL MR_compare_type_info).
Local Abbreviation Compare :=
  (mercury____Compare___std_util__type_info_0_0_bootstrap
     word_bits transient MR_compare_type_info).

(** X1: the Unify and the Compare entry point return exactly when the
    call of the comparator on [r1] and [r2] does: neither recovers from an
    abort of the comparator, and neither aborts on its own. *)
Theorem entry_points_return_iff (e : engine) :
  (is_Some (Unify e) ↔
   is_Some (MR_compare_type_info (mr e r1) (mr e r2)
              (save_transient_registers transient e))) ∧
  (is_Some (Compare e) ↔
   is_Some (MR_compare_type_info (mr e r1) (mr e r2)
              (save_transient_registers transient e))).
Proof.
  destruct (MR_compare_type_info (mr e r1) (mr e r2)
              (save_transient_registers transient e))
    as [[comp e1]|] eqn:H.
  - rewrite (Unify_returns _ _ _ _ _ _ _ H), (Compare_returns _ _ _ _ _ _ H).
    split; split; eauto.
  - destruct (entry_points_abort word_bits transient COMPARE_EQUAL _ e H)
      as [-> ->].
    split; split; intros [? ?]; discriminate.
Qed.

(** X2: run from the same state, Unify and Compare return to the same
    address and leave the same register file but for [r1]: the same live
    registers other than [r1], and the same save area. *)
Theorem Unify_and_Compare_differ_in_r1
    (e eu ec : engine) (ku kc : Z) :
  Unify e = Some (eu, ku) →
  Compare e = Some (ec, kc) →
  ku = kc ∧
  (∀ x, x ≠ r1 → mr eu x = mr ec x) ∧
  (∀ x, fake_reg eu x = fake_reg ec x).
Proof.
  destruct (MR_compare_type_info (mr e r1) (mr e r2)
              (save_transient_registers transient e))
    as [[comp e1]|] eqn:H.
  - rewrite (Unify_returns _ _ _ _ _ _ _ H), (Compare_returns _ _ _ _ _ _ H).
    intros [= <- <-] [= <- <-]. split_and!; [done| |done].
    intros x Hx. by rewrite !set_mr_other.
  - destruct (entry_points_abort word_bits transient COMPARE_EQUAL _ e H)
      as [-> _].
    discriminate.
Qed.

(** X3: when the comparator returns a value in the range of [Integer],
    and [COMPARE_EQUAL] is in that range, Unify leaves true in [r1]
    exactly when Compare, run from the same state, leaves [COMPARE_EQUAL]
    in [r1]. *)
Theorem Unify_true_iff_Compare_leaves_EQUAL
    (e : engine) (comp : Z) (e1 : engine) :
  MR_compare_type_info (mr e r1) (mr e r2)
    (save_transient_registers transient e) = Some (comp, e1) →
  - 2 ^ (word_bits - 1) ≤ comp < 2 ^ (word_bits - 1) →
  - 2 ^ (word_bits - 1) ≤ COMPARE_EQUAL < 2 ^ (word_bits - 1) →
  ∃ eu ku ec kc,
    Unify e = Some (eu, ku) ∧
    Compare e = Some (ec, kc) ∧
    (mr eu r1 = 1 ↔ Integer_of_Word word_bits (mr ec r1) = COMPARE_EQUAL) ∧
    (mr eu r1 = 1 ↔ mr ec r1 = Word_of_int word_bits COMPARE_EQUAL).
Proof.
  intros H Hcomp HEQ. eexists _, _, _, _.
  split; [by apply Unify_returns|]. split; [by apply Compare_returns|].
  rewrite !set_mr_same, Word_of_int_C_bool by done.
  rewrite Integer_of_Word_of_int by done.
  assert (C_bool (comp =? COMPARE_EQUAL) = 1 ↔ comp = COMPARE_EQUAL) as Hb.
  { destruct (Z.eqb_spec comp COMPARE_EQUAL); simpl; split; intros; lia. }
  split; [done|]. rewrite Hb. split; [by intros ->|].
  intros Hw.
  rewrite <- (Integer_of_Word_of_int word_bits word_bits_pos comp) by done.
  rewrite Hw. by apply Integer_of_Word_of_int.
Qed.

End EntryPointsTogether.

(** ** Registration *)

Section Registration.
Variable word_bits : Z.
Variable transient : reg → bool.
Variable COMPARE_EQUAL : Z.
Variable MR_compare_type_info : Z → Z → engine → option (Z * engine).

Local Abbreviation sys_init :=
  (sys_init_unify_univ_module_bootstrap
     word_bits transient COMPARE_EQUAL MR_compare_type_info).

Lemma sys_init_lookup (table : gmap string entry_code) (l : string) :
  sys_init table !! l =
    if decide (l = "mercury____Compare___std_util__type_info_0_0_bootstrap")
    then Some (mercury____Compare___std_util__type_info_0_0_bootstrap
                 word_bits transient MR_compare_type_info)
    else if decide
              (l = "mercury____Index___std_util__type_info_0_0_bootstrap")
    then Some (mercury____Index___std_util__type_info_0_0_bootstrap
                 word_bits)
    else if decide
              (l = "mercury____Unify___std_util__type_info_0_0_bootstrap")
    then Some (mercury____Unify___std_util__type_info_0_0_bootstrap
                 word_bits transient COMPARE_EQUAL MR_compare_type_info)
    else table !! l.
Proof.
  unfold sys_init_unify_univ_module_bootstrap, unify_univ_module_bootstrap,
    init_entry.
  rewrite !lookup_insert. repeat case_decide; congruence.
Qed.

(** X7: initialising the module adds its three labels to the entry table
    and nothing else: the table afterwards is defined on the labels it was
    defined on and on these three, and every other label is bound to what
    it was bound to, or still unbound. *)
Theorem sys_init_keeps_other_entries (table : gmap string entry_code) :
  dom (sys_init table) =
    dom table ∪ list_to_set unify_univ_module_bootstrap_labels ∧
  ∀ l, l ∉ unify_univ_module_bootstrap_labels →
       sys_init table !! l = table !! l.
Proof.
  split.
  - unfold sys_init_unify_univ_module_bootstrap,
      unify_univ_module_bootstrap, init_entry.
    rewrite !dom_insert_L. simpl. apply set_eq. intros x.
    set_unfold. tauto.
  - intros l Hl. rewrite sys_init_lookup.
    unfold unify_univ_module_bootstrap_labels in Hl.
    rewrite !not_elem_of_cons in Hl. destruct Hl as (Hu & Hi & Hc & _).
    by rewrite !decide_False.
Qed.

End Registration.

(** ** The further properties at the sample data *)

Lemma Unify_and_Compare_differ_in_r1_witness :
  (mercury____Unify___std_util__type_info_0_0_bootstrap
     64 Probe.transient 0 Probe.MR_compare_type_info (Sample.engine_at 1 2)
   = Some (set_mr r1 0
             (restore_transient_registers Probe.transient
                (Probe.after_call 1 2)), 4243) ∧
   mercury____Compare___std_util__type_info_0_0_bootstrap
     64 Probe.transient Probe.MR_compare_type_info (Sample.engine_at 1 2)
   = Some (set_mr r1 (2 ^ 64 - 5)
             (restore_transient_registers Probe.transient
                (Probe.after_call 1 2)), 4243)) ∧
  (4243 = 4243 ∧
   (∀ x, x ≠ r1 →
      mr (set_mr r1 0
            (restore_transient_registers Probe.transient
               (Probe.after_call 1 2))) x
      = mr (set_mr r1 (2 ^ 64 - 5)
              (restore_transient_registers Probe.transient
                 (Probe.after_call 1 2))) x) ∧
   (∀ x,
      fake_reg (set_mr r1 0
                  (restore_transient_registers Probe.transient
                     (Probe.after_call 1 2))) x
      = fake_reg (set_mr r1 (2 ^ 64 - 5)
                    (restore_transient_registers Probe.transient
                       (Probe.after_call 1 2))) x)).
Proof.
  split.
  - split; reflexivity.
  - apply (Unify_and_Compare_differ_in_r1 64 Probe.transient 0
             Probe.MR_compare_type_info (Sample.engine_at 1 2));
      reflexivity.
Defined.

Lemma Unify_true_iff_Compare_leaves_EQUAL_witness :
  (0 < 64 ∧
   Sample.MR_compare_type_info
     (mr (Sample.engine_at 300 300) r1) (mr (Sample.engine_at 300 300) r2)
     (save_transient_registers Sample.transient (Sample.engine_at 300 300))
   = Some (0, Sample.after_call 300 300) ∧
   - 2 ^ (64 - 1) ≤ 0 < 2 ^ (64 - 1)) ∧
  ∃ eu ku ec kc,
    mercury____Unify___std_util__type_info_0_0_bootstrap
      64 Sample.transient 0 Sample.MR_compare_type_info
      (Sample.engine_at 300 300)
    = Some (eu, ku) ∧
    mercury____Compare___std_util__type_info_0_0_bootstrap
      64 Sample.transient Sample.MR_compare_type_info
      (Sample.engine_at 300 300)
    = Some (ec, kc) ∧
    (mr eu r1 = 1 ↔ Integer_of_Word 64 (mr ec r1) = 0) ∧
    (mr eu r1 = 1 ↔ mr ec r1 = Word_of_int 64 0).
Proof.
  split.
  - split; [lia|]. split; [vm_compute; reflexivity | lia].
  - apply (Unify_true_iff_Compare_leaves_EQUAL 64 Sample.transient 0
             Sample.MR_compare_type_info ltac:(lia)
             (Sample.engine_at 300 300) 0 (Sample.after_call 300 300));
      [vm_compute; reflexivity | lia | lia].
Defined.

(** With the callee of [Probe], which changes the save area, Unify does
    not return to the caller's continuation: the caller had 4242 in
    [succip], and control goes to 4243. *)
Example probe_moves_continuation :
  mr (Sample.engine_at 1 2) succip = 4242 ∧
  snd <$> mercury____Unify___std_util__type_info_0_0_bootstrap
            64 Probe.transient 0 Probe.MR_compare_type_info
            (Sample.engine_at 1 2)
  = Some 4243.
Proof. split; reflexivity. Qed.
